(** * FindYourEnemy: the layer pipeline of [scripts/main.js]

A shallow embedding of the Leaflet viewer's script: the chained
[XMLHttpRequest] loader [leaflet.setAllControls], the merge
[leaflet.setFeatureLayers], the GeoJSON labelling [leaflet.setGeoJson]
and the click handler installed by [window.onload].

JavaScript objects are carried by their own enumerable string-keyed
properties, kept in the order [Object.entries] lists them; keys are
ordinary property names (the inherited accessor [__proto__] is not
modelled).  Leaflet, [JSON.parse] and the browser's request object are
not part of the script: what the script needs of them is a parameter of
the development or a small transcription of their documented contract.
A source location is taken to be an address [req.open] accepts. *)

From Stdlib Require Import PrimFloat.
From stdpp Require Import base strings numbers option list.

Local Open Scope string_scope.
Local Open Scope list_scope.
Set Warnings "-register-all,-inexact-float".

(** ** JavaScript objects as ordered property lists *)

Module JsObj.

Definition t (V : Type) : Type := list (string * V).

Definition digit (c : Ascii.ascii) : option N :=
  let n := Ascii.N_of_ascii c in
  if ((48 <=? n) && (n <=? 57))%N then Some (n - 48)%N else None.

Fixpoint decimal (s : string) (acc : N) : option N :=
  match s with
  | EmptyString => Some acc
  | String c rest =>
      match digit c with
      | Some d => decimal rest (10 * acc + d)%N
      | None => None
      end
  end.

(** ECMAScript "array index": the canonical decimal text of an integer
    below 2^32 - 1.  [OrdinaryOwnPropertyKeys] lists such keys before all
    others, in ascending numeric order, and the other string keys in the
    order they were created. *)
Definition array_index (k : string) : option N :=
  match k with
  | EmptyString => None
  | String c rest =>
      match digit c, rest with
      | Some 0%N, String _ _ => None
      | _, _ =>
          match decimal k 0 with
          | Some n => if (n <? 2 ^ 32 - 1)%N then Some n else None
          | None => None
          end
      end
  end.

Section Ops.
Context {V : Type}.

Definition keys (o : t V) : list string := o.*1.

(** [o[k]], [None] standing for [undefined]. *)
Fixpoint get (k : string) (o : t V) : option V :=
  match o with
  | [] => None
  | (k', v) :: rest => if decide (k = k') then Some v else get k rest
  end.

Definition has (k : string) (o : t V) : bool :=
  bool_decide (k ∈ keys o).

(** Assignment to an existing property keeps its place. *)
Fixpoint replace (k : string) (v : V) (o : t V) : t V :=
  match o with
  | [] => []
  | (k', v') :: rest =>
      if decide (k = k') then (k, v) :: rest
      else (k', v') :: replace k v rest
  end.

(** A new array-index key goes among the index keys, by value. *)
Fixpoint insert_index (n : N) (k : string) (v : V) (o : t V) : t V :=
  match o with
  | [] => [(k, v)]
  | (k', v') :: rest =>
      match array_index k' with
      | Some n' =>
          if (n' <? n)%N then (k', v') :: insert_index n k v rest
          else (k, v) :: o
      | None => (k, v) :: o
      end
  end.

(** [o[k] = v]. *)
Definition set (k : string) (v : V) (o : t V) : t V :=
  if has k o then replace k v o
  else match array_index k with
       | Some n => insert_index n k v o
       | None => o ++ [(k, v)]
       end.

(** [Object.entries(o)]. *)
Definition entries (o : t V) : list (string * V) := o.

(** Plain keys: not array indices, so enumerated in creation order. *)
Definition plain (k : string) : Prop := array_index k = None.

End Ops.

End JsObj.

(** ** Values, layers and documents *)

Inductive completion (A : Type) : Type :=
| Return (v : A)
| Throw.
Arguments Return {A} v.
Arguments Throw {A}.

(** JSON numbers and coordinates are IEEE doubles. *)
Record LatLng : Type := { lat : float; lng : float }.

Inductive json : Type :=
| JNull
| JBool (b : bool)
| JNum (x : float)
| JStr (s : string)
| JArr (items : list json)
| JObj (members : list (string * json)).

(** A GeoJSON feature; its [properties] member is an object or [null]
    (here [None]). *)
Record feature : Type := Feature {
  geometry : json;
  properties : option (JsObj.t json)
}.

(** The values the script stores in its arrays and objects. *)
Inductive jsval : Type :=
| VUndefined
| VStr (s : string)
| VObj (o : list (string * jsval))
| VTileLayer (url : string)
| VMarker (pos : LatLng) (popup : option string)
| VLayerGroup (members : list jsval)
| VGeoJSON (style : jsval) (members : list (feature * json)).

Definition ToString (v : jsval) : string :=
  match v with
  | VUndefined => "undefined"
  | VStr s => s
  | _ => "[object Object]"
  end.

(** Property read [o.k]. *)
Definition prop (k : string) (o : JsObj.t jsval) : jsval :=
  default VUndefined (JsObj.get k o).

(** An element of the [geoJSON] configuration array of [window.onload]. *)
Record descriptor : Type := Descriptor {
  name : string;
  attr : string;
  src : string;
  style : jsval
}.

Definition descriptor_obj (d : descriptor) : JsObj.t jsval :=
  [("name", VStr (name d)); ("attr", VStr (attr d));
   ("src", VStr (src d)); ("style", style d)].

(** ** The click handler installed by [window.onload] *)

(** The map's layers by Leaflet stamp, the stamp counter, and
    [m.userInput]: the stamp of the marker it refers to, [None] while
    it is [undefined]. *)
Record shell : Type := Shell {
  map_layers : list (nat * jsval);
  lastId : nat;
  userInput : option nat
}.

(** [map.removeLayer(layer)]. *)
Definition removeLayer (id : nat) (layers : list (nat * jsval)) : list (nat * jsval) :=
  filter (λ entry, entry.1 ≠ id) layers.

(** [layer.addTo(map)] for a layer with stamp [id]. *)
Definition addTo (id : nat) (layer : jsval) (layers : list (nat * jsval))
  : list (nat * jsval) :=
  if bool_decide (id ∈ layers.*1) then layers else layers ++ [(id, layer)].

(** [layer.bindPopup(text)] on the marker with stamp [id]. *)
Definition bindPopup (id : nat) (text : string) (layers : list (nat * jsval))
  : list (nat * jsval) :=
  (λ entry,
     match entry with
     | (id', VMarker pos _) =>
         if decide (id' = id) then (id', VMarker pos (Some text)) else entry
     | _ => entry
     end) <$> layers.

(** [map.on('click', e => ...)], with [latlng] for [e.latlng].  The
    readout and the welcome message are page elements and leave the map
    alone. *)
Definition click (st : shell) (latlng : LatLng) : shell :=
  let layers :=
    match userInput st with
    | Some id => removeLayer id (map_layers st)
    | None => map_layers st
    end in
  let id := S (lastId st) in
  {| map_layers :=
       bindPopup id "Possible Enemy Location" (addTo id (VMarker latlng None) layers);
     lastId := id;
     userInput := Some id |}.

Definition clicks (st : shell) (es : list LatLng) : shell :=
  fold_left click es st.

(** ** [leaflet.setMarkers] *)

(** [for (const i in latLongPairs) markers.push(new L.marker(...).bindPopup(...))],
    over the rest arguments in index order, then [L.layerGroup(markers)]. *)
Definition setMarkers (latLongPairs : list LatLng) : jsval :=
  VLayerGroup
    (fold_left
       (λ markers pair, markers ++ [VMarker pair (Some "An enemy lives here.")])
       latLongPairs []).

(** ** [m.hide] *)

(** [s.includes(sub)]. *)
Fixpoint includes (sub s : string) : bool :=
  String.prefix sub s ||
  match s with
  | EmptyString => false
  | String _ rest => includes sub rest
  end.

Fixpoint has_char (c : Ascii.ascii) (s : string) : bool :=
  match s with
  | EmptyString => false
  | String c' rest => bool_decide (c = c') || has_char c rest
  end.

(** An element as [m.hide] sees it: its [className], and the number of
    callbacks [m.hide] has handed to [window.setTimeout(..., 500)] that
    have not run yet. *)
Record element : Type := Element {
  className : string;
  pending : nat
}.

(** The call [m.hide(el)]. *)
Definition hide (el : element) : element :=
  {| className :=
       if negb (includes "d-none" (className el))
       then className el +:+ " slide-up"
       else className el;
     pending := S (pending el) |}.

(** One of the pending callbacks runs: [el.className += ' d-none']. *)
Definition hide_timer (el : element) : element :=
  match pending el with
  | 0 => el
  | S n => {| className := className el +:+ " d-none"; pending := n |}
  end.

Inductive hide_event : Type :=
| HideCall
| TimerRuns.

Definition hide_step (el : element) (ev : hide_event) : element :=
  match ev with
  | HideCall => hide el
  | TimerRuns => hide_timer el
  end.

Definition hide_run (el : element) (evs : list hide_event) : element :=
  fold_left hide_step evs el.

Fixpoint hide_calls (evs : list hide_event) : nat :=
  match evs with
  | [] => 0
  | HideCall :: rest => S (hide_calls rest)
  | TimerRuns :: rest => hide_calls rest
  end.

(** [n] copies of [s], one after the other. *)
Fixpoint repeated (n : nat) (s : string) : string :=
  match n with
  | 0 => EmptyString
  | S n' => s +:+ repeated n' s
  end.

(** ** The page's configuration, and sample data *)

(** The [geoJSON] array, the marker entry and the basemaps of
    [window.onload]. *)
Definition parks : descriptor :=
  Descriptor "Edmonton Parks" "offname" "json/EdmontonParks.geojson"
    (VObj [("color", VStr "green")]).

Definition roads : descriptor :=
  Descriptor "Edmonton Roads" "name_ab" "json/EdmontonRoads.geojson"
    (VObj [("color", VStr "purple")]).

Definition geoJSON : list descriptor := [parks; roads].

Definition pointLongLat : LatLng := {| lat := 53.533727; lng := -113.506616 |}.

Definition marker : JsObj.t jsval :=
  [("Enemies", VLayerGroup [VMarker pointLongLat (Some "An enemy lives here.")])].

Definition basemapTiles : JsObj.t jsval :=
  [("Stadia_AlidadeSmooth",
    VTileLayer "https://tiles.stadiamaps.com/tiles/alidade_smooth/{z}/{x}/{y}{r}.png");
   ("osm", VTileLayer "https://{s}.tile.openstreetmap.org/{z}/{x}/{y}.png")].

(** Sample response bodies with the documents they parse to, and a
    sample reading of a document: an array with one property object (or
    [null]) per feature.  Both stand for [JSON.parse] and [L.geoJSON] in
    the examples only. *)
Definition sample_parse (body : string) : option json :=
  if decide (body = "parks") then
    Some (JArr [JObj [("offname", JStr "Hawrelak Park")];
                JObj [("offname", JNull)];
                JObj [("area", JNum 68)]])
  else if decide (body = "roads") then
    Some (JArr [JObj [("name_ab", JStr "Whitemud Drive")]])
  else if decide (body = "bare") then
    Some (JArr [JNull])
  else None.

Definition sample_features (doc : json) : option (list feature) :=
  match doc with
  | JArr items =>
      Some ((λ item,
               Feature JNull
                 match item with
                 | JObj props => Some props
                 | _ => None
                 end) <$> items)
  | _ => None
  end.

(** The entries the two sample documents are realized as. *)
Definition park_entry : JsObj.t jsval :=
  [("Edmonton Parks",
    VGeoJSON (VObj [("color", VStr "green")])
      [(Feature JNull (Some [("offname", JStr "Hawrelak Park")]), JStr "Hawrelak Park");
       (Feature JNull (Some [("offname", JNull)]), JStr "Unnamed");
       (Feature JNull (Some [("area", JNum 68)]), JStr "Unnamed")])].

Definition road_entry : JsObj.t jsval :=
  [("Edmonton Roads",
    VGeoJSON (VObj [("color", VStr "purple")])
      [(Feature JNull (Some [("name_ab", JStr "Whitemud Drive")]),
        JStr "Whitemud Drive")])].


Definition roads2021 : descriptor :=
  Descriptor "2021" "name_ab" "json/Roads2021.geojson" (VObj []).

Definition roads2020 : descriptor :=
  Descriptor "2020" "name_ab" "json/Roads2020.geojson" (VObj []).

(** A sample rendering of numbers, standing for [toFixed] in the examples
    only. *)
Definition sample_toFixed (x : float) (digits : nat) : string :=
  if PrimFloat.ltb x 0 then "-113.51" else "53.53".

(** ** The loader *)

Section Viewer.

(** ** [leaflet.setGeoJson] *)

(** [JSON.parse]; [None] when it throws. *)
Variable JSON_parse : string -> option json.

(** The features [L.geoJSON] builds a layer for, in document order;
    [None] when it rejects the document. *)
Variable L_geoJSON_features : json -> option (list feature).

(** The [onEachFeature] callback: the content handed to
    [layer.bindPopup].  Reading a property of [null] throws. *)
Definition onEachFeature (labelAttr : jsval) (f : feature) : option json :=
  props ← properties f;
  Some (match JsObj.get (ToString labelAttr) props with
        | None | Some JNull => JStr "Unnamed"
        | Some label => label
        end).

Definition setGeoJson (doc : json) (labelAttr : jsval) (st : jsval)
  : option jsval :=
  fs ← L_geoJSON_features doc;
  members ← mapM (λ f, popup ← onEachFeature labelAttr f; Some (f, popup)) fs;
  Some (VGeoJSON st members).

(** ** [leaflet.setFeatureLayers] *)

Definition assign_entries (layersObject obj : JsObj.t jsval) : JsObj.t jsval :=
  fold_left (λ acc kv, JsObj.set kv.1 kv.2 acc) (JsObj.entries obj) layersObject.

Definition setFeatureLayers (layerGroups : list (JsObj.t jsval)) : JsObj.t jsval :=
  fold_left assign_entries layerGroups [].

(** ** [leaflet.setAllControls] *)

(** The one request object: the handler in [onload] is the closure
    created for index [i]; [inflight] is the address of a request that
    was sent and has not come back. *)
Record xhr : Type := Xhr {
  onload : option nat;
  inflight : option string
}.

(** [L.control.layers(tiles, featurelayers)]. *)
Record control : Type := Control {
  basemaps : JsObj.t jsval;
  overlays : JsObj.t jsval
}.

(** What the run did, in order (bookkeeping only). *)
Inductive action : Type :=
| Retrieve (i : nat) (url : string)
| Replace (i : nat) (entry : JsObj.t jsval)
| Complete (featurelayers : JsObj.t jsval).

Record state : Type := State {
  objects : list (JsObj.t jsval);
  req : xhr;
  controls : list control;
  trace : list action
}.

(** [xs.forEach(item => features.push(item))]. *)
Definition forEach_push (xs features : list (JsObj.t jsval)) : list (JsObj.t jsval) :=
  fold_left (λ fs item, fs ++ [item]) xs features.

(** ** Vocabulary of the statements *)

(** Assigning a run of entries, one after the other. *)
Definition assign_all {V : Type} (l : list (string * V)) (o : JsObj.t V)
  : JsObj.t V :=
  fold_left (λ acc kv, JsObj.set kv.1 kv.2 acc) l o.

(** The entry the handler stores for descriptor [d] when the response
    body is [response]; [None] when parsing throws. *)
Definition realized_entry (d : descriptor) (response : string)
  : option (JsObj.t jsval) :=
  doc ← JSON_parse response;
  geom ← setGeoJson doc (VStr (attr d)) (style d);
  Some [(name d, geom)].

Definition realizes (d : descriptor) (entry : JsObj.t jsval) : Prop :=
  ∃ response, realized_entry d response = Some entry.

(** The trace of the descriptors already replaced, from index [i]. *)
Fixpoint steps (i : nat) (ds : list descriptor) (es : list (JsObj.t jsval))
  : list action :=
  match ds, es with
  | d :: ds', e :: es' => Retrieve i (src d) :: Replace i e :: steps (S i) ds' es'
  | _, _ => []
  end.

Definition completions (t : list action) : list (JsObj.t jsval) :=
  omap (λ a, match a with Complete m => Some m | _ => None end) t.

Definition last_handler (ds : list descriptor) : option nat :=
  match ds with
  | [] => None
  | _ :: _ => Some (length ds - 1)
  end.

(** ** The handlers of [window.onload] on the page *)

(** [Number.prototype.toFixed]. *)
Variable toFixed : float -> nat -> string.

(** [leaflet.getEventCoordinates(obj, decimalPlaces)], with [latlng] for
    [obj.latlng]. *)
Definition getEventCoordinates (latlng : LatLng) (decimalPlaces : nat) : string :=
  toFixed (lat latlng) decimalPlaces +:+ ", " +:+ toFixed (lng latlng) decimalPlaces.

(** What the handlers read and write: the map with [m.userInput], the
    welcome message, the two readouts, and whether the callback of
    [window.setTimeout(() => m.hide(welcomeMsg), 10000)] is still to
    run. *)
Record page : Type := Page {
  map_state : shell;
  welcomeMsg : element;
  clickCoords : string;
  mousePos : string;
  autohide : bool
}.

(** [map.on('mousemove', e => ...)]. *)
Definition on_mousemove (pg : page) (latlng : LatLng) : page :=
  {| map_state := map_state pg;
     welcomeMsg := welcomeMsg pg;
     clickCoords := clickCoords pg;
     mousePos := getEventCoordinates latlng 2;
     autohide := autohide pg |}.

(** [map.on('click', e => ...)], whole. *)
Definition on_click (pg : page) (latlng : LatLng) : page :=
  {| map_state := click (map_state pg) latlng;
     welcomeMsg := hide (welcomeMsg pg);
     clickCoords := getEventCoordinates latlng 2;
     mousePos := mousePos pg;
     autohide := autohide pg |}.

Inductive page_event : Type :=
| Mousemove (latlng : LatLng)
| Click (latlng : LatLng)
| AutohideRuns
| WelcomeTimerRuns.

Definition page_step (pg : page) (ev : page_event) : page :=
  match ev with
  | Mousemove latlng => on_mousemove pg latlng
  | Click latlng => on_click pg latlng
  | AutohideRuns =>
      if autohide pg then
        {| map_state := map_state pg;
           welcomeMsg := hide (welcomeMsg pg);
           clickCoords := clickCoords pg;
           mousePos := mousePos pg;
           autohide := false |}
      else pg
  | WelcomeTimerRuns =>
      {| map_state := map_state pg;
         welcomeMsg := hide_timer (welcomeMsg pg);
         clickCoords := clickCoords pg;
         mousePos := mousePos pg;
         autohide := autohide pg |}
  end.

Definition page_run (pg : page) (evs : list page_event) : page :=
  fold_left page_step evs pg.

(** The locations clicked, in order. *)
Definition clicked (evs : list page_event) : list LatLng :=
  omap (λ ev, match ev with Click latlng => Some latlng | _ => None end) evs.

(** ** More vocabulary *)

(** The requests opened, in order, with their index. *)
Definition retrievals (t : list action) : list (nat * string) :=
  omap (λ a, match a with Retrieve i url => Some (i, url) | _ => None end) t.

(** Key lists in the order [Object.entries] gives: array-index keys in
    ascending order of their value, then the other keys. *)
Inductive canonical_keys : list string → Prop :=
| canonical_plain ks :
    Forall JsObj.plain ks → canonical_keys ks
| canonical_index k n ks :
    JsObj.array_index k = Some n →
    Forall (λ k', match JsObj.array_index k' with
                  | Some n' => (n ≤ n')%N
                  | None => True
                  end) ks →
    canonical_keys ks →
    canonical_keys (k :: ks).

Section Closure.

Variable preparsedFeatures : list (JsObj.t jsval).
Variable tiles : JsObj.t jsval.

(** The value returned is the [features] array, or [None] for
    [undefined]. *)
Definition recursivexhttp (i : nat) (st : state)
  : completion (option (list (JsObj.t jsval))) * state :=
  if decide (i = length (objects st)) then
    let features := forEach_push (objects st) (forEach_push preparsedFeatures []) in
    let featurelayers := setFeatureLayers features in
    (Return (Some features),
     {| objects := objects st;
        req := req st;
        controls := controls st ++ [Control tiles featurelayers];
        trace := trace st ++ [Complete featurelayers] |})
  else
    match objects st !! i with
    | None => (Throw, st)
    | Some o =>
        let url := ToString (prop "src" o) in
        (Return None,
         {| objects := objects st;
            req := {| onload := Some i; inflight := Some url |};
            controls := controls st;
            trace := trace st ++ [Retrieve i url] |})
    end.

(** The arrow function stored in [req.onload] by the call for [i]. *)
Definition onload_handler (i : nat) (response : string) (st : state)
  : completion (option (list (JsObj.t jsval))) * state :=
  match JSON_parse response with
  | None => (Throw, st)
  | Some doc =>
      match objects st !! i with
      | None => (Throw, st)
      | Some o =>
          match setGeoJson doc (prop "attr" o) (prop "style" o) with
          | None => (Throw, st)
          | Some geom =>
              let leafletGeom := JsObj.set (ToString (prop "name" o)) geom [] in
              recursivexhttp (i + 1)
                {| objects := <[i := leafletGeom]> (objects st);
                   req := req st;
                   controls := controls st;
                   trace := trace st ++ [Replace i leafletGeom] |}
          end
      end
  end.

(** What the browser can do to the request object: deliver the
    response of the request in flight ([load]), or give up on it
    ([error], for which the script registers nothing). *)
Inductive event : Type :=
| Load (response : string)
| Fail.

Definition settle (st : state) : state :=
  {| objects := objects st;
     req := {| onload := onload (req st); inflight := None |};
     controls := controls st;
     trace := trace st |}.

(** One turn of the event loop.  The handler's value, and an
    exception leaving it, go to the browser. *)
Definition deliver (st : state) (ev : event) : state :=
  match inflight (req st), ev, onload (req st) with
  | Some _, Load response, Some i => (onload_handler i response (settle st)).2
  | Some _, _, _ => settle st
  | None, _, _ => st
  end.

Definition run (st : state) (evs : list event) : state :=
  fold_left deliver evs st.

Definition setAllControls (objs : list (JsObj.t jsval)) (map : list control)
  : completion (option (list (JsObj.t jsval))) * state :=
  recursivexhttp 0
    {| objects := objs;
       req := {| onload := None; inflight := None |};
       controls := map;
       trace := [] |}.

Section Reachable.

Variable ds : list descriptor.
Variable map : list control.

Definition initial : state :=
  (setAllControls (descriptor_obj <$> ds) map).2.

(** The request for [d] has been issued, after [past] was realized
    as [es]; it is still in flight ([busy]) or was lost. *)
Definition waiting_state (past : list descriptor) (d : descriptor)
    (todo : list descriptor) (es : list (JsObj.t jsval)) (busy : bool) : state :=
  {| objects := es ++ (descriptor_obj <$> d :: todo);
     req := {| onload := Some (length past);
               inflight := if busy then Some (src d) else None |};
     controls := map;
     trace := steps 0 past es ++ [Retrieve (length past) (src d)] |}.

(** Everything is realized as [es] and the control is on the map. *)
Definition done_state (es : list (JsObj.t jsval)) : state :=
  {| objects := es;
     req := {| onload := last_handler ds; inflight := None |};
     controls :=
       map ++ [Control tiles (setFeatureLayers (preparsedFeatures ++ es))];
     trace :=
       steps 0 ds es
       ++ [Complete (setFeatureLayers (preparsedFeatures ++ es))] |}.

(** The shapes a run can be in. *)
Inductive shape : state → Prop :=
| shape_waiting past d todo es busy :
    ds = past ++ d :: todo →
    Forall2 realizes past es →
    shape (waiting_state past d todo es busy)
| shape_done es :
    Forall2 realizes ds es →
    shape (done_state es).

(** The entries the responses [rs] realize for [ds], when all parse. *)
Definition realized_entries (ds : list descriptor) (rs : list string)
  : option (list (JsObj.t jsval)) :=
  mapM (λ dr, realized_entry dr.1 dr.2) (zip ds rs).

Section JsObjFacts.
Context {V : Type}.
Implicit Types (o : JsObj.t V) (k : string) (v : V).



Lemma set_empty k v : JsObj.set k v [] = [(k, v)].
Proof. unfold JsObj.set. simpl. by destruct (JsObj.array_index k). Qed.

Lemma keys_replace k v o : JsObj.keys (JsObj.replace k v o) = JsObj.keys o.
Proof.
  unfold JsObj.keys.
  induction o as [|[k' v'] o IH]; simpl; [done|].
  destruct (decide (k = k')) as [->|]; simpl; [done|].
  f_equal. apply IH.
Qed.

Lemma insert_index_perm n k v o : JsObj.insert_index n k v o ≡ₚ (k, v) :: o.
Proof.
  induction o as [|[k' v'] o IH]; simpl; [done|].
  destruct (JsObj.array_index k') as [n'|]; [|done].
  destruct (n' <? n)%N; [|done].
  rewrite IH. apply Permutation_swap.
Qed.












End JsObjFacts.

(** ** Facts about the loader *)

Lemma forEach_push_app xs features : forEach_push xs features = features ++ xs.
Proof.
  unfold forEach_push. revert features.
  induction xs as [|x xs IH]; simpl; intros features.
  - by rewrite app_nil_r.
  - by rewrite IH, <-app_assoc.
Qed.

Lemma fold_assign_entries layerGroups o :
  fold_left assign_entries layerGroups o = assign_all (concat layerGroups) o.
Proof.
  revert o. induction layerGroups as [|g gs IH]; simpl; intros o; [done|].
  rewrite IH. unfold assign_all, assign_entries, JsObj.entries.
  by rewrite fold_left_app.
Qed.

Lemma setFeatureLayers_concat layerGroups :
  setFeatureLayers layerGroups = assign_all (concat layerGroups) [].
Proof. apply fold_assign_entries. Qed.

Lemma prop_src d : prop "src" (descriptor_obj d) = VStr (src d).
Proof. reflexivity. Qed.

Lemma prop_attr d : prop "attr" (descriptor_obj d) = VStr (attr d).
Proof. reflexivity. Qed.

Lemma prop_style d : prop "style" (descriptor_obj d) = style d.
Proof. reflexivity. Qed.

Lemma prop_name d : prop "name" (descriptor_obj d) = VStr (name d).
Proof. reflexivity. Qed.

Lemma steps_snoc i past es d e :
  length past = length es →
  steps i (past ++ [d]) (es ++ [e]) =
  steps i past es ++ [Retrieve (i + length past) (src d); Replace (i + length past) e].
Proof.
  revert i es. induction past as [|d0 past IH]; intros i [|e0 es] Hlen;
    simplify_eq/=.
  - by rewrite Nat.add_0_r.
  - rewrite IH by done. by rewrite Nat.add_succ_r.
Qed.


(** The call for the next index, on the array as it stands after
    [done] has been realized. *)
Lemma recursivexhttp_last es rq t :
  recursivexhttp (length es) (State es rq map t) =
  (Return (Some (preparsedFeatures ++ es)),
   State es rq
     (map ++ [Control tiles (setFeatureLayers (preparsedFeatures ++ es))])
     (t ++ [Complete (setFeatureLayers (preparsedFeatures ++ es))])).
Proof.
  unfold recursivexhttp. simpl. rewrite decide_True by done.
  by rewrite !forEach_push_app.
Qed.

Lemma recursivexhttp_more es d todo rq t :
  recursivexhttp (length es) (State (es ++ (descriptor_obj <$> d :: todo)) rq map t) =
  (Return None,
   State (es ++ (descriptor_obj <$> d :: todo))
     (Xhr (Some (length es)) (Some (src d))) map
     (t ++ [Retrieve (length es) (src d)])).
Proof.
  unfold recursivexhttp. simpl.
  rewrite decide_False by (rewrite length_app; simpl; lia).
  by rewrite list_lookup_middle.
Qed.

Lemma initial_eq :
  initial =
  match ds with
  | [] => done_state []
  | d :: todo => waiting_state [] d todo [] true
  end.
Proof.
  unfold initial, setAllControls, done_state.
  remember ds as l eqn:Hl. destruct l as [|d todo]; simpl; [|done].
  by rewrite forEach_push_app, app_nil_r.
Qed.

Lemma shape_initial : shape initial.
Proof.
  rewrite initial_eq.
  remember ds as l eqn:Hl. destruct l as [|d todo].
  - constructor. rewrite <-Hl. constructor.
  - by constructor.
Qed.

(** The handler of the request for [d], on the array as it stands while
    that request is out. *)
Lemma onload_handler_waiting es d todo rq t response :
  onload_handler (length es) response
    (State (es ++ (descriptor_obj <$> d :: todo)) rq map t) =
  match realized_entry d response with
  | None => (Throw, State (es ++ (descriptor_obj <$> d :: todo)) rq map t)
  | Some e =>
      recursivexhttp (length es + 1)
        (State (es ++ e :: (descriptor_obj <$> todo)) rq map
           (t ++ [Replace (length es) e]))
  end.
Proof.
  unfold onload_handler, realized_entry. simpl.
  destruct (JSON_parse response) as [doc|]; simpl; [|done].
  rewrite list_lookup_middle by done.
  rewrite prop_attr, prop_style, prop_name.
  destruct (setGeoJson doc _ _) as [geom|]; simpl; [|done].
  rewrite set_empty. f_equal. f_equal.
  replace (length es) with (length es + 0) at 1 by lia.
  by rewrite insert_app_r.
Qed.

Lemma last_handler_snoc past d : last_handler (past ++ [d]) = Some (length past).
Proof.
  destruct past; simpl; [done|]. f_equal. rewrite length_app. simpl. lia.
Qed.

(** One turn of the event loop while the request for [d] is out. *)
Lemma deliver_waiting past d todo es ev :
  ds = past ++ d :: todo →
  length past = length es →
  deliver (waiting_state past d todo es true) ev =
  match ev with
  | Fail => waiting_state past d todo es false
  | Load response =>
      match realized_entry d response, todo with
      | None, _ => waiting_state past d todo es false
      | Some e, [] => done_state (es ++ [e])
      | Some e, d' :: todo' => waiting_state (past ++ [d]) d' todo' (es ++ [e]) true
      end
  end.
Proof.
  intros Hds Hlen.
  unfold deliver, settle, waiting_state.
  cbn [req inflight onload objects controls trace].
  destruct ev as [response|]; [|done].
  rewrite Hlen, onload_handler_waiting.
  destruct (realized_entry d response) as [e|]; [|done].
  rewrite <-app_assoc. simpl.
  replace (steps 0 past es ++ [Retrieve (length es) (src d); Replace (length es) e])
    with (steps 0 (past ++ [d]) (es ++ [e]))
    by (by rewrite steps_snoc, Hlen).
  replace (length es + 1) with (length (es ++ [e]))
    by (rewrite length_app; simpl; lia).
  rewrite (cons_middle e es (descriptor_obj <$> todo)).
  rewrite (app_assoc es [e] (descriptor_obj <$> todo)).
  destruct todo as [|d' todo].
  - simpl. rewrite app_nil_r, recursivexhttp_last. simpl.
    unfold done_state. by rewrite Hds, last_handler_snoc, Hlen.
  - rewrite recursivexhttp_more. simpl.
    by rewrite !length_app, Hlen.
Qed.

Lemma deliver_idle st ev : inflight (req st) = None → deliver st ev = st.
Proof. intros H. unfold deliver. by rewrite H. Qed.

Lemma run_idle st evs : inflight (req st) = None → run st evs = st.
Proof.
  intros H. induction evs as [|ev evs IH]; simpl; [done|].
  by rewrite deliver_idle.
Qed.

Lemma shape_deliver st ev : shape st → shape (deliver st ev).
Proof.
  intros [past d todo es busy Hds Hes | es Hes];
    [|by rewrite deliver_idle; [constructor|]].
  destruct busy; [|by rewrite deliver_idle; [constructor|]].
  pose proof (Forall2_length _ _ _ Hes) as Hlen.
  rewrite deliver_waiting by done.
  destruct ev as [response|]; [|by constructor].
  destruct (realized_entry d response) as [e|] eqn:He; [|by constructor].
  assert (Forall2 realizes (past ++ [d]) (es ++ [e])) as Hes'.
  { apply Forall2_app; [done|]. constructor; [by exists response|constructor]. }
  destruct todo as [|d' todo].
  - constructor. by rewrite Hds.
  - constructor; [by rewrite <-app_assoc|done].
Qed.

Lemma shape_run evs st : shape st → shape (run st evs).
Proof.
  revert st. induction evs as [|ev evs IH]; simpl; intros st Hst; [done|].
  apply IH. by apply shape_deliver.
Qed.

(** Every state of a run has one of the two shapes. *)
Lemma shape_reachable evs : shape (run initial evs).
Proof. apply shape_run, shape_initial. Qed.

(** ** Facts about traces *)

Lemma completions_app t1 t2 : completions (t1 ++ t2) = completions t1 ++ completions t2.
Proof. apply omap_app. Qed.

Lemma completions_steps i l es : completions (steps i l es) = [].
Proof.
  revert i es. induction l as [|d l IH]; intros i [|e es]; simpl; auto.
Qed.

Lemma steps_Retrieve_bound i l es j url :
  Retrieve j url ∈ steps i l es → (i ≤ j < i + length l)%nat.
Proof.
  revert i es. induction l as [|d l IH]; intros i [|e es]; simpl; intros Hin;
    try by apply elem_of_nil in Hin.
  apply elem_of_cons in Hin as [Heq|Hin]; [simplify_eq; lia|].
  apply elem_of_cons in Hin as [Heq|Hin]; [done|].
  apply IH in Hin. lia.
Qed.

Lemma steps_Replace i l es k e :
  length l = length es → es !! k = Some e → Replace (i + k) e ∈ steps i l es.
Proof.
  revert i es k. induction l as [|d l IH]; intros i [|e0 es] k Hlen Hk;
    simplify_eq/=.
  destruct k as [|k]; simplify_eq/=.
  - rewrite Nat.add_0_r. apply elem_of_cons. right. apply list_elem_of_here.
  - do 2 (apply elem_of_cons; right).
    replace (i + S k) with (S i + k) by lia. by apply IH.
Qed.

Lemma steps_Retrieve_Replace i l es j url :
  Retrieve j url ∈ steps i l es → ∃ e, Replace j e ∈ steps i l es.
Proof.
  revert i es. induction l as [|d l IH]; intros i [|e es]; simpl; intros Hin;
    try by apply elem_of_nil in Hin.
  apply elem_of_cons in Hin as [Heq|Hin].
  - simplify_eq. exists e. apply elem_of_cons. right. apply list_elem_of_here.
  - apply elem_of_cons in Hin as [Heq|Hin]; [done|].
    destruct (IH _ _ Hin) as [e' He']. exists e'.
    by do 2 (apply elem_of_cons; right).
Qed.

(** Where a retrieval sits in a trace: everything before it is the
    complete record of the descriptors before it. *)
Lemma steps_split i (l : list descriptor) es (tail before after : list action) j url :
  length l = length es →
  (∀ a, a ∈ tail → (∃ u, a = Retrieve (i + length l) u) ∨ ∃ m, a = Complete m) →
  (length tail ≤ 1)%nat →
  steps i l es ++ tail = before ++ Retrieve j url :: after →
  ∃ k, j = i + k ∧ (k ≤ length l)%nat ∧ before = steps i (take k l) (take k es).
Proof.
  revert i es before. induction l as [|d l IH]; intros i [|e es] before Hlen Htail Hone Heq;
    simplify_eq/=.
  - destruct before as [|a before]; simplify_eq/=.
    + destruct (Htail (Retrieve j url)) as [[u Hu]|[m Hm]];
        [apply list_elem_of_here| |done].
      simplify_eq. exists 0. split; [done|]. split; [lia|done].
    + rewrite length_app in Hone. simpl in Hone. lia.
  - destruct before as [|a before]; simplify_eq/=.
    { exists 0. split; [lia|]. split; [lia|done]. }
    destruct before as [|a' before]; simplify_eq/=.
    destruct (IH (S i) es before) as (k & -> & Hk & ->); try done.
    { intros a Ha. destruct (Htail a Ha) as [[u ->]|[m ->]]; [left|right; eauto].
      exists u. f_equal. lia. }
    exists (S k). split; [lia|]. split; [lia|done].
Qed.


Lemma steps_Retrieve i (l : list descriptor) es k d :
  length l = length es → l !! k = Some d → Retrieve (i + k) (src d) ∈ steps i l es.
Proof.
  revert i es k. induction l as [|d0 l IH]; intros i [|e0 es] k Hlen Hk;
    simplify_eq/=.
  destruct k as [|k]; simplify_eq/=.
  - rewrite Nat.add_0_r. apply list_elem_of_here.
  - do 2 (apply elem_of_cons; right).
    replace (i + S k) with (S i + k) by lia. by apply IH.
Qed.

Lemma realizes_lookup (l : list descriptor) es i d :
  Forall2 realizes l es → l !! i = Some d →
  ∃ e, es !! i = Some e ∧ realizes d e.
Proof. intros H Hd. by eapply Forall2_lookup_l in H. Qed.

(** ** The claims about the loader *)


(** C3. Retrievals are strictly sequential.  When the retrieval for
    index [i] begins, every earlier index (so [i - 1] in particular) has
    had its own retrieval answered and its response parsed into the
    entry that replaced the descriptor, and no retrieval begun earlier
    is still unanswered: at most one request is out at a time. *)
Theorem retrievals_strictly_sequential (evs : list event)
    (before after : list action) i url :
  trace (run initial evs) = before ++ Retrieve i url :: after →
  (∀ j, j < i →
     ∃ d e, ds !! j = Some d ∧ realizes d e ∧
            Retrieve j (src d) ∈ before ∧ Replace j e ∈ before) ∧
  (∀ j u, Retrieve j u ∈ before → ∃ e, Replace j e ∈ before).
Proof.
  intros Heq.
  assert (∃ (l : list descriptor) es todo,
            ds = l ++ todo ∧ Forall2 realizes l es ∧ (i ≤ length l)%nat ∧
            before = steps 0 (take i l) (take i es))
    as (l & es & todo & Hds & Hes & Hi & ->).
  { pose proof (shape_reachable evs) as Hs.
    destruct Hs as [past d0 todo es busy Hds Hes | es Hes]; simpl in Heq.
    - apply steps_split in Heq as (k & -> & Hk & ->);
        [|by eapply Forall2_length| |simpl; lia].
      + by exists past, es, (d0 :: todo).
      + intros a Ha. apply list_elem_of_singleton in Ha as ->. left. eauto.
    - apply steps_split in Heq as (k & -> & Hk & ->);
        [|by eapply Forall2_length| |simpl; lia].
      + exists ds, es, []. by rewrite app_nil_r.
      + intros a Ha. apply list_elem_of_singleton in Ha as ->. right. eauto. }
  pose proof (Forall2_length _ _ _ Hes) as Hlen.
  split; [|intros j u; apply steps_Retrieve_Replace].
  intros j Hj.
  destruct (lookup_lt_is_Some_2 l j) as [d Hd]; [lia|].
  destruct (realizes_lookup l es j d Hes Hd) as (e & He & Hr).
  exists d, e. split; [by rewrite Hds; apply lookup_app_l_Some|].
  split; [done|].
  assert (length (take i l) = length (take i es)) as Hlen'
    by (rewrite !length_take; lia).
  split.
  - apply (steps_Retrieve 0 (take i l) (take i es) j); [done|].
    by rewrite lookup_take_lt.
  - apply (steps_Replace 0 (take i l) (take i es) j); [done|].
    by rewrite lookup_take_lt.
Qed.


(** C5. A retrieval that fails, or a response that does not parse, stops
    the loader for good.  Whatever the browser delivers afterwards, the
    state stays what it was with the request gone: descriptor [i] is
    still a descriptor, no retrieval beyond [i] is ever issued, the
    completion step never runs, no control is added; and the exception
    leaves the handler uncaught. *)
Theorem failure_halts_sequence (evs evs' : list event) (ev : event) i d :
  let st := run initial evs in
  onload (req st) = Some i → is_Some (inflight (req st)) →
  ds !! i = Some d →
  (ev = Fail ∨ ∃ response, ev = Load response ∧ realized_entry d response = None) →
  let st' := run (deliver st ev) evs' in
  st' = settle st ∧
  inflight (req st') = None ∧
  controls st' = map ∧
  completions (trace st') = [] ∧
  (∀ j url, Retrieve j url ∈ trace st' → (j ≤ i)%nat) ∧
  objects st' !! i = Some (descriptor_obj d) ∧
  (∀ response, ev = Load response →
     (onload_handler i response (settle st)).1 = Throw).
Proof.
  intros st Hi Hin Hd Hev st'.
  pose proof (shape_reachable evs) as Hs. fold st in Hs. subst st'.
  clearbody st. destruct Hs as [past d0 todo es busy Hds Hes | es Hes];
    [|by destruct Hin].
  destruct busy; [|by destruct Hin].
  pose proof (Forall2_length _ _ _ Hes) as Hlen.
  simpl in Hi. injection Hi as <-.
  assert (d0 = d) as ->.
  { rewrite Hds, list_lookup_middle in Hd by done. by injection Hd. }
  assert (deliver (waiting_state past d todo es true) ev =
          waiting_state past d todo es false) as ->.
  { rewrite deliver_waiting by done.
    destruct Hev as [->|(response & -> & ->)]; done. }
  rewrite run_idle by done.
  split; [done|]. split; [done|]. split; [done|]. split.
  { simpl. by rewrite completions_app, completions_steps. }
  split.
  { simpl. intros j url Hj. apply elem_of_app in Hj as [Hj|Hj].
    - apply steps_Retrieve_bound in Hj. lia.
    - apply list_elem_of_singleton in Hj. by injection Hj as ->. }
  split.
  { simpl. rewrite Hlen. by apply list_lookup_middle. }
  intros response ->. destruct Hev as [?|(r & Hl & Hr)]; [done|].
  injection Hl as <-. unfold settle, waiting_state.
  cbn [objects req controls trace onload inflight].
  rewrite Hlen, onload_handler_waiting. by rewrite Hr.
Qed.

(** When every response parses, the run does complete: the loads of
    [rs], delivered in order, leave every descriptor replaced and the
    control on the map. *)
Lemma run_cons st ev evs : run st (ev :: evs) = run (deliver st ev) evs.
Proof. done. Qed.

Lemma run_waiting_loads past d todo es rs es' :
  ds = past ++ d :: todo →
  length past = length es →
  Forall2 (λ dr e, realized_entry dr.1 dr.2 = Some e) (zip (d :: todo) rs) es' →
  length rs = length (d :: todo) →
  run (waiting_state past d todo es true) (Load <$> rs) = done_state (es ++ es').
Proof.
  revert past d es rs es'.
  induction todo as [|d' todo IH]; intros past d es rs es' Hds Hlen Hrs Hl.
  - destruct rs as [|r [|r' rs]]; simpl in Hl; try done.
    inversion Hrs as [|? e ? ? He Hnil]; subst. inversion Hnil; subst.
    simpl in He. rewrite fmap_cons, run_cons, deliver_waiting by done.
    by rewrite He.
  - destruct rs as [|r rs]; simpl in Hl; [done|].
    inversion Hrs as [|? e ? es'' He Hrest]; subst.
    simpl in He. rewrite fmap_cons, run_cons, deliver_waiting by done.
    rewrite He.
    rewrite (IH (past ++ [d]) d' (es ++ [e]) rs es'');
      [by rewrite <-app_assoc|by rewrite <-app_assoc|
       by rewrite !length_app, Hlen|done|simpl in Hl |- *; lia].
Qed.

Lemma run_all_loads rs es :
  realized_entries ds rs = Some es →
  length rs = length ds →
  run initial (Load <$> rs) = done_state es.
Proof.
  intros Hes Hlen. rewrite initial_eq.
  apply mapM_Some in Hes.
  remember ds as l eqn:Hl. destruct l as [|d todo].
  - destruct rs; [|done]. by inversion Hes.
  - by apply (run_waiting_loads [] d todo [] rs es).
Qed.


Lemma realized_entries_realizes (l : list descriptor) rs es :
  realized_entries l rs = Some es → length rs = length l → Forall2 realizes l es.
Proof.
  unfold realized_entries. intros H. apply mapM_Some in H.
  revert rs es H. induction l as [|d l IH]; intros [|r rs] es H Hlen;
    simpl in H, Hlen |- *; try done.
  - inversion H. constructor.
  - inversion H as [|? e ? es' He Hrest]; subst.
    constructor; [by exists r|]. apply (IH rs); [done|lia].
Qed.


(** C10. What [setAllControls] hands back to its caller is the
    [features] array only for an empty array of descriptors; for every
    non-empty one it is [undefined].  There the [features] array is the
    value of the handler call that answers the last request, and the
    turn of the event loop that runs the handler keeps the state
    only. *)
Theorem setAllControls_return_value (objs : list (JsObj.t jsval)) :
  (setAllControls objs map).1 =
    match objs with
    | [] => Return (Some preparsedFeatures)
    | _ :: _ => Return None
    end ∧
  (∀ past d es response e,
     ds = past ++ [d] → Forall2 realizes past es →
     realized_entry d response = Some e →
     (onload_handler (length past) response
        (settle (waiting_state past d [] es true))).1 =
       Return (Some (preparsedFeatures ++ es ++ [e])) ∧
     deliver (waiting_state past d [] es true) (Load response) =
       done_state (es ++ [e])).
Proof.
  split.
  - unfold setAllControls, recursivexhttp. simpl.
    destruct objs as [|o objs]; simpl; [|done].
    by rewrite forEach_push_app.
  - intros past d es response e Hds Hes He.
    pose proof (Forall2_length _ _ _ Hes) as Hlen. split.
    + unfold settle, waiting_state.
      cbn [objects req controls trace onload inflight].
      rewrite Hlen, onload_handler_waiting, He.
      replace (length es + 1) with (length (es ++ [e]))
        by (rewrite length_app; simpl; lia).
      simpl. rewrite (recursivexhttp_last (es ++ [e])). done.
    + rewrite deliver_waiting by done. by rewrite He.
Qed.


(** ** More about the loader *)




Lemma retrievals_app (t1 t2 : list action) :
  retrievals (t1 ++ t2) = retrievals t1 ++ retrievals t2.
Proof. apply omap_app. Qed.

Lemma retrievals_steps i (l : list descriptor) es :
  length l = length es →
  retrievals (steps i l es) = imap (λ j d, (i + j, src d)) l.
Proof.
  revert i es. induction l as [|d l IH]; intros i [|e es] Hlen; try done.
  simpl in Hlen. injection Hlen as Hlen.
  change (retrievals (steps i (d :: l) (e :: es)))
    with ((i, src d) :: retrievals (steps (S i) l es)).
  rewrite IH by done. simpl. rewrite Nat.add_0_r. f_equal.
  apply imap_ext. intros j d' _. simpl. f_equal. lia.
Qed.



(** X13. The loader asks for the sources in list order, each at most
    once and none skipped: the requests opened so far are those for the
    first [k] descriptors, each for the [src] of its own descriptor, and
    for a non-empty list the first one is opened by the call to
    [setAllControls] itself. *)
Theorem retrievals_follow_sources (evs : list event) :
  ∃ k,
    (k ≤ length ds)%nat ∧
    (ds ≠ [] → 0 < k) ∧
    retrievals (trace (run initial evs)) = imap (λ i d, (i, src d)) (take k ds).
Proof.
  pose proof (shape_reachable evs) as Hs.
  destruct Hs as [past d0 todo es busy Hds Hes | es Hes]; simpl.
  - pose proof (Forall2_length _ _ _ Hes) as Hlen.
    exists (S (length past)). rewrite Hds at 1 2. rewrite length_app. simpl.
    split; [lia|]. split; [lia|].
    rewrite retrievals_app, retrievals_steps by done.
    replace (take (S (length past)) ds) with (past ++ [d0]).
    + rewrite imap_app. simpl. by rewrite Nat.add_0_r.
    + rewrite Hds, (cons_middle d0 past todo), app_assoc.
      replace (S (length past)) with (length (past ++ [d0]))
        by (rewrite length_app; simpl; lia).
      by rewrite take_app_length.
  - pose proof (Forall2_length _ _ _ Hes) as Hlen.
    exists (length ds). split; [lia|]. split.
    + intros Hne. destruct ds; [done|simpl; lia].
    + rewrite retrievals_app, retrievals_steps by done.
      simpl. by rewrite app_nil_r, firstn_all.
Qed.

(** X14. The loader never takes a control off the map and never changes
    one: the controls are those the map had, followed by nothing or by
    the one layer control.  That control has the tiles handed in as base
    maps and the merge of the pre-parsed entries and the array as
    overlays, and it is there only when every descriptor is realized and
    no request is out. *)
Theorem controls_are_kept (evs : list event) :
  let st := run initial evs in
  controls st = map ∨
  (controls st =
     map ++ [Control tiles (setFeatureLayers (preparsedFeatures ++ objects st))] ∧
   Forall2 realizes ds (objects st) ∧
   inflight (req st) = None).
Proof.
  intros st. pose proof (shape_reachable evs) as Hs. fold st in Hs.
  clearbody st. destruct Hs as [past d0 todo es busy Hds Hes | es Hes]; simpl.
  - by left.
  - right. by split.
Qed.

Lemma run_waiting_some_loads past d todo es past' d' todo' rs es' :
  ds = past ++ d :: todo →
  length past = length es →
  d :: todo = past' ++ d' :: todo' →
  Forall2 (λ dr e, realized_entry dr.1 dr.2 = Some e) (zip past' rs) es' →
  length rs = length past' →
  run (waiting_state past d todo es true) (Load <$> rs) =
  waiting_state (past ++ past') d' todo' (es ++ es') true.
Proof.
  revert past d todo es rs es'.
  induction past' as [|p past' IH]; intros past d todo es rs es' Hds Hlen Hsplit Hrs Hl.
  - destruct rs; [|done]. inversion Hrs; subst. simpl in Hsplit.
    injection Hsplit as <- <-. by rewrite !app_nil_r.
  - destruct rs as [|r rs]; [done|]. simpl in Hl. injection Hl as Hl.
    simpl in Hsplit. injection Hsplit as <- Htodo.
    inversion Hrs as [|? e ? es'' He Hrest]; subst es'. simpl in He.
    rewrite fmap_cons, run_cons, deliver_waiting, He by done.
    destruct todo as [|d2 todo2]; [by destruct past'|].
    rewrite (IH (past ++ [d]) d2 todo2 (es ++ [e]) rs es'');
      [by rewrite <-!app_assoc|by rewrite <-app_assoc|
       by rewrite !length_app, Hlen|done| |done].
    by simplify_eq.
Qed.

(** X15. The control appears exactly with the last response.  While the
    responses parse, after those for the descriptors [past] the run waits
    for the next descriptor [d]: its request is out, the array holds the
    entries of [past] followed by the untouched descriptors, and no
    control has been added.  After the responses for all descriptors the
    run is over, and whatever the browser delivers then is ignored. *)
Theorem control_comes_with_last_response :
  (∀ past d todo rs es,
     ds = past ++ d :: todo →
     length rs = length past →
     realized_entries past rs = Some es →
     run initial (Load <$> rs) = waiting_state past d todo es true) ∧
  (∀ rs es evs,
     realized_entries ds rs = Some es →
     length rs = length ds →
     run initial ((Load <$> rs) ++ evs) = done_state es).
Proof.
  split.
  - intros past d todo rs es Hds Hlen Hes. rewrite initial_eq.
    apply mapM_Some in Hes.
    remember ds as l eqn:Hl. destruct l as [|d0 todo0]; [by destruct past|].
    by apply (run_waiting_some_loads [] d0 todo0 [] past d todo rs es).
  - intros rs es evs Hes Hlen. unfold run. rewrite fold_left_app.
    fold (run initial (Load <$> rs)). rewrite (run_all_loads rs es) by done.
    by apply run_idle.
Qed.


End Reachable.

End Closure.

(** ** The claims about the merge, the labels and the click handler *)





(** A feature whose [properties] member is [null] makes the callback,
    and with it [L.geoJSON], throw. *)
Lemma onEachFeature_null (labelAttr : jsval) (f : feature) :
  properties f = None → onEachFeature labelAttr f = None.
Proof. intros H. unfold onEachFeature. by rewrite H. Qed.


(** The state in which the one marker placed by the last click sits on
    top of the layers [base]. *)
Lemma removeLayer_fresh id (base : list (nat * jsval)) :
  Forall (λ entry, entry.1 < id) base → removeLayer id base = base.
Proof.
  unfold removeLayer. induction 1 as [|[id' v] base Hlt _ IH]; [done|].
  rewrite filter_cons_True by (simpl in Hlt |- *; lia). by rewrite IH.
Qed.

Lemma removeLayer_last id v (base : list (nat * jsval)) :
  Forall (λ entry, entry.1 < id) base → removeLayer id (base ++ [(id, v)]) = base.
Proof.
  intros Hbase. unfold removeLayer. rewrite filter_app.
  rewrite filter_cons_False by (simpl; intros H; by apply H).
  rewrite filter_nil, app_nil_r. by apply removeLayer_fresh.
Qed.

Lemma addTo_fresh id v (base : list (nat * jsval)) :
  Forall (λ entry, entry.1 < id) base → addTo id v base = base ++ [(id, v)].
Proof.
  intros Hbase. unfold addTo. rewrite bool_decide_eq_false_2; [done|].
  intros Hin. apply list_elem_of_fmap in Hin as ([id' v'] & -> & Hin).
  rewrite Forall_forall in Hbase. apply Hbase in Hin. simpl in Hin. lia.
Qed.

Lemma bindPopup_fresh id text (base : list (nat * jsval)) :
  Forall (λ entry, entry.1 < id) base → bindPopup id text base = base.
Proof.
  unfold bindPopup. induction 1 as [|[id' v] base Hlt _ IH]; [done|].
  rewrite fmap_cons, IH. f_equal.
  destruct v; try done. simpl in Hlt. rewrite decide_False; [done|lia].
Qed.

Lemma bindPopup_last id pos text (base : list (nat * jsval)) :
  Forall (λ entry, entry.1 < id) base →
  bindPopup id text (base ++ [(id, VMarker pos None)]) =
  base ++ [(id, VMarker pos (Some text))].
Proof.
  intros Hbase. rewrite <-(bindPopup_fresh id text base Hbase) at 2.
  unfold bindPopup. rewrite fmap_app. simpl. by rewrite decide_True.
Qed.

Lemma click_first (st : shell) (latlng : LatLng) :
  userInput st = None →
  Forall (λ entry : nat * jsval, (entry.1 ≤ lastId st)%nat) (map_layers st) →
  click st latlng =
  {| map_layers :=
       map_layers st
       ++ [(S (lastId st), VMarker latlng (Some "Possible Enemy Location"))];
     lastId := S (lastId st);
     userInput := Some (S (lastId st)) |}.
Proof.
  intros Hu Hids. unfold click. rewrite Hu.
  assert (Forall (λ entry : nat * jsval, entry.1 < S (lastId st)) (map_layers st))
    as Hlt by (eapply Forall_impl; [done|]; simpl; intros; lia).
  by rewrite addTo_fresh, bindPopup_last.
Qed.

Lemma click_again (base : list (nat * jsval)) id marker (latlng : LatLng) :
  Forall (λ entry, entry.1 < id) base →
  click {| map_layers := base ++ [(id, marker)]; lastId := id; userInput := Some id |}
    latlng =
  {| map_layers := base ++ [(S id, VMarker latlng (Some "Possible Enemy Location"))];
     lastId := S id;
     userInput := Some (S id) |}.
Proof.
  intros Hbase. unfold click. simpl. rewrite removeLayer_last by done.
  assert (Forall (λ entry : nat * jsval, entry.1 < S id) base)
    as Hlt by (eapply Forall_impl; [done|]; simpl; intros; lia).
  by rewrite addTo_fresh, bindPopup_last.
Qed.

Lemma clicks_again (base : list (nat * jsval)) id marker (es : list LatLng) last_e :
  Forall (λ entry, entry.1 < id) base →
  clicks {| map_layers := base ++ [(id, marker)]; lastId := id; userInput := Some id |}
    (es ++ [last_e]) =
  {| map_layers :=
       base ++ [(id + length es + 1,
                 VMarker last_e (Some "Possible Enemy Location"))];
     lastId := id + length es + 1;
     userInput := Some (id + length es + 1) |}.
Proof.
  revert id marker. induction es as [|e es IH]; intros id marker Hbase.
  - change (clicks ?s ([] ++ [last_e])) with (click s last_e).
    rewrite click_again by done. simpl.
    by replace (id + 0 + 1) with (S id) by lia.
  - change (clicks ?s ((e :: es) ++ [last_e]))
      with (clicks (click s e) (es ++ [last_e])).
    rewrite click_again by done.
    rewrite IH by (eapply Forall_impl; [done|]; simpl; intros; lia).
    simpl. by replace (S (id + length es + 1)) with (id + S (length es) + 1) by lia.
Qed.

(** C8. However often the map is clicked, it carries one marker placed
    by clicking: after the clicks [es] and then [latlng], on a map that
    had no such marker yet, the layers are the ones the map had plus one
    marker, at [latlng], to which [m.userInput] refers; each click took
    the marker of the click before off the map.  After two clicks the
    one marker is at the second location. *)
Theorem one_transient_marker (st : shell) (es : list LatLng) (latlng : LatLng) :
  userInput st = None →
  Forall (λ entry : nat * jsval, (entry.1 ≤ lastId st)%nat) (map_layers st) →
  let st' := clicks st (es ++ [latlng]) in
  map_layers st' =
    map_layers st
    ++ [(lastId st + length es + 1,
         VMarker latlng (Some "Possible Enemy Location"))] ∧
  userInput st' = Some (lastId st + length es + 1).
Proof.
  intros Hu Hids st'. subst st'.
  assert (Forall (λ entry : nat * jsval, entry.1 < S (lastId st)) (map_layers st))
    as Hlt by (eapply Forall_impl; [done|]; simpl; intros; lia).
  destruct es as [|e es].
  - change (clicks st ([] ++ [latlng])) with (click st latlng).
    rewrite click_first by done. simpl.
    by replace (lastId st + 0 + 1) with (S (lastId st)) by lia.
  - change (clicks st ((e :: es) ++ [latlng]))
      with (clicks (click st e) (es ++ [latlng])).
    rewrite click_first by done.
    rewrite (clicks_again (map_layers st) (S (lastId st))) by done. simpl.
    by replace (S (lastId st + length es + 1))
      with (lastId st + S (length es) + 1) by lia.
Qed.


(** ** [m.hide]: facts about class names *)

Lemma append_cons x (a b : string) : String x a +:+ b = String x (a +:+ b).
Proof. reflexivity. Qed.

Lemma append_nil_l (a : string) : "" +:+ a = a.
Proof. reflexivity. Qed.

Lemma append_assoc (a b c : string) : (a +:+ b) +:+ c = a +:+ b +:+ c.
Proof.
  induction a as [|x a IH]; [done|]. by rewrite !append_cons, IH.
Qed.

Lemma append_nil_r (a : string) : a +:+ "" = a.
Proof. induction a as [|x a IH]; [done|]. by rewrite append_cons, IH. Qed.

Lemma prefix_spec (sub s : string) :
  String.prefix sub s = true ↔ ∃ after, s = sub +:+ after.
Proof.
  revert s. induction sub as [|a sub IH]; intros s.
  - split; [intros _; by exists s|intros _; by destruct s].
  - destruct s as [|b s]; simpl.
    + split; [done|]. intros [after H]. by rewrite append_cons in H.
    + destruct (Ascii.ascii_dec a b) as [->|Hne].
      * rewrite IH. split; intros [after H]; exists after.
        -- by rewrite append_cons, H.
        -- rewrite append_cons in H. by injection H.
      * split; [done|]. intros [after H].
        rewrite append_cons in H. by injection H.
Qed.

Lemma includes_eq (sub s : string) :
  includes sub s =
  String.prefix sub s ||
  match s with
  | EmptyString => false
  | String _ rest => includes sub rest
  end.
Proof. by destruct s. Qed.

Lemma includes_prefix (sub s : string) :
  String.prefix sub s = true → includes sub s = true.
Proof. intros H. by rewrite includes_eq, H. Qed.

Lemma includes_app_l (sub s t : string) :
  includes sub t = true → includes sub (s +:+ t) = true.
Proof.
  intros H. induction s as [|b s IH]; [done|].
  by rewrite append_cons, includes_eq, IH, orb_true_r.
Qed.

Lemma includes_app_r (sub s t : string) :
  includes sub s = true → includes sub (s +:+ t) = true.
Proof.
  assert (∀ s, String.prefix sub s = true → String.prefix sub (s +:+ t) = true)
    as Hpre.
  { intros s' H. apply prefix_spec in H as [after H].
    apply prefix_spec. exists (after +:+ t). by rewrite H, append_assoc. }
  induction s as [|b s IH]; intros H; rewrite includes_eq in H.
  - rewrite orb_false_r in H. by apply includes_prefix, Hpre.
  - apply orb_true_iff in H as [H|H]; [by apply includes_prefix, Hpre|].
    by rewrite append_cons, includes_eq, (IH H), orb_true_r.
Qed.

(** [includes] is the substring test. *)
Lemma includes_spec (sub s : string) :
  includes sub s = true ↔ ∃ before after, s = before +:+ sub +:+ after.
Proof.
  split.
  - induction s as [|b s IH]; intros H; rewrite includes_eq in H.
    + rewrite orb_false_r in H. apply prefix_spec in H as [after H].
      by exists "", after.
    + apply orb_true_iff in H as [H|H].
      * apply prefix_spec in H as [after H]. by exists "", after.
      * destruct (IH H) as (before & after & ->).
        by exists (String b before), after.
  - intros (before & after & ->). apply includes_app_l, includes_prefix.
    apply prefix_spec. by eexists.
Qed.

(** An occurrence of [sub] cannot run across a character that [sub] does
    not contain. *)
Lemma prefix_no_cross (sub s t : string) c :
  has_char c sub = false →
  String.prefix sub (s +:+ String c t) = String.prefix sub s.
Proof.
  revert s. induction sub as [|a sub IH]; intros s Hc; [by destruct s|].
  simpl in Hc. apply orb_false_iff in Hc as [Hac Hc].
  apply bool_decide_eq_false in Hac.
  destruct s as [|b s]; [rewrite append_nil_l|rewrite append_cons]; simpl.
  - destruct (Ascii.ascii_dec a c); [by subst|done].
  - destruct (Ascii.ascii_dec a b); [by apply IH|done].
Qed.

Lemma includes_no_cross (sub s t : string) c :
  has_char c sub = false →
  includes sub (s +:+ String c t) = includes sub s || includes sub t.
Proof.
  intros Hc. induction s as [|b s IH].
  - rewrite append_nil_l, (includes_eq sub (String c t)), (includes_eq sub "").
    rewrite orb_false_r.
    destruct sub as [|a sub]; [done|].
    simpl in Hc. apply orb_false_iff in Hc as [Hac _].
    apply bool_decide_eq_false in Hac. simpl.
    by destruct (Ascii.ascii_dec a c); [subst|].
  - rewrite append_cons, includes_eq, <-append_cons, prefix_no_cross, IH by done.
    rewrite (includes_eq sub (String b s)). by rewrite orb_assoc.
Qed.

Lemma repeated_app (n : nat) (s : string) :
  repeated (S n) s = repeated n s +:+ s.
Proof.
  induction n as [|n IH].
  - simpl. by rewrite append_nil_r.
  - change (repeated (S (S n)) s) with (s +:+ repeated (S n) s).
    rewrite IH at 1. change (repeated (S n) s) with (s +:+ repeated n s).
    by rewrite !append_assoc.
Qed.


Lemma hide_step_hidden (el : element) (ev : hide_event) :
  includes "d-none" (className el) = true →
  includes "d-none" (className (hide_step el ev)) = true.
Proof.
  intros H. destruct ev; simpl.
  - by rewrite H.
  - unfold hide_timer. destruct (pending el); simpl; [done|].
    by apply includes_app_r.
Qed.

Lemma hide_run_hidden (el : element) (evs : list hide_event) :
  includes "d-none" (className el) = true →
  includes "d-none" (className (hide_run el evs)) = true.
Proof.
  revert el. induction evs as [|ev evs IH]; intros el H; [done|].
  apply IH. by apply hide_step_hidden.
Qed.

(** Hidden already, or a callback that will hide is waiting. *)
Lemma hide_timer_hides (el : element) :
  includes "d-none" (className el) = true ∨ 0 < pending el →
  includes "d-none" (className (hide_timer el)) = true.
Proof.
  intros [H|H]; [by apply (hide_step_hidden el TimerRuns)|].
  unfold hide_timer. destruct (pending el) eqn:E; [lia|]. simpl.
  by apply includes_app_l.
Qed.

Lemma hide_step_on_the_way (el : element) (ev : hide_event) :
  includes "d-none" (className el) = true ∨ 0 < pending el →
  includes "d-none" (className (hide_step el ev)) = true
  ∨ 0 < pending (hide_step el ev).
Proof.
  intros H. destruct ev.
  - right. simpl. lia.
  - left. by apply hide_timer_hides.
Qed.

Lemma hide_run_on_the_way (el : element) (evs : list hide_event) :
  includes "d-none" (className el) = true ∨ 0 < pending el →
  includes "d-none" (className (hide_run el evs)) = true
  ∨ 0 < pending (hide_run el evs).
Proof.
  revert el. induction evs as [|ev evs IH]; intros el H; [done|].
  apply IH. by apply hide_step_on_the_way.
Qed.

(** X1. [m.hide] does hide: once the element has been handed to [m.hide]
    and one of the delayed callbacks has run after that, its class name
    contains ["d-none"], whatever other calls and callbacks come in
    between or later. *)
Theorem hide_hides_for_good (el : element) (evs1 evs2 : list hide_event) :
  includes "d-none"
    (className (hide_run el (HideCall :: evs1 ++ TimerRuns :: evs2))) = true.
Proof.
  unfold hide_run. simpl. rewrite fold_left_app. simpl.
  apply hide_run_hidden, hide_timer_hides, hide_run_on_the_way.
  right. simpl. lia.
Qed.

(** X2. [m.hide] and its callbacks only ever append to the class name:
    what the element had stays in front, so a class that is on the
    element is never taken off. *)
Theorem class_name_only_grows (el : element) (evs : list hide_event) :
  ∃ added,
    className (hide_run el evs) = className el +:+ added ∧
    ∀ cls, includes cls (className el) = true →
           includes cls (className (hide_run el evs)) = true.
Proof.
  assert (∃ added, className (hide_run el evs) = className el +:+ added)
    as [added Hadded].
  { revert el. induction evs as [|ev evs IH]; intros el.
    - exists "". by rewrite append_nil_r.
    - destruct (IH (hide_step el ev)) as [added Hadded].
      change (hide_run el (ev :: evs)) with (hide_run (hide_step el ev) evs).
      rewrite Hadded. destruct ev; simpl.
      + destruct (includes "d-none" (className el)); simpl; [by eexists|].
        eexists. by rewrite append_assoc.
      + unfold hide_timer. destruct (pending el); simpl; [by eexists|].
        eexists. by rewrite append_assoc. }
  exists added. split; [done|].
  intros cls H. rewrite Hadded. by apply includes_app_r.
Qed.

(** X3. On an element that is hidden already [m.hide] adds no
    ["slide-up"], and each call ends up appending one more [" d-none"]:
    after any calls and callbacks the class name is the old one followed
    by as many [" d-none"] as callbacks have run. *)
Theorem hidden_element_collects_d_none (el : element) (evs : list hide_event) :
  includes "d-none" (className el) = true →
  ∃ k,
    className (hide_run el evs) = className el +:+ repeated k " d-none" ∧
    k + pending (hide_run el evs) = pending el + hide_calls evs.
Proof.
  revert el. induction evs as [|ev evs IH]; intros el H.
  - exists 0. simpl. split; [by rewrite append_nil_r|lia].
  - change (hide_run el (ev :: evs)) with (hide_run (hide_step el ev) evs).
    destruct (IH (hide_step el ev) (hide_step_hidden el ev H)) as (k & Hk & Hp).
    rewrite Hk. clear Hk. destruct ev.
    + assert (hide_step el HideCall =
              {| className := className el; pending := S (pending el) |}) as E
        by (simpl; unfold hide; by rewrite H).
      rewrite E in Hp |- *. simpl in Hp |- *. exists k. split; [done|lia].
    + simpl in Hp |- *. unfold hide_timer in Hp |- *.
      destruct (pending el) as [|n] eqn:Hn.
      * exists k. split; [done|lia].
      * simpl in Hp |- *. exists (S k). split; [by rewrite append_assoc|lia].
Qed.

(** X4. On an element that is not hidden, calls that come before any
    callback has run each append another [" slide-up"]: [n] calls leave
    [n] copies and [n] more callbacks waiting. *)
Theorem slide_up_once_per_call (el : element) (n : nat) :
  includes "d-none" (className el) = false →
  className (hide_run el (replicate n HideCall)) =
    className el +:+ repeated n " slide-up" ∧
  pending (hide_run el (replicate n HideCall)) = pending el + n ∧
  includes "d-none" (className (hide_run el (replicate n HideCall))) = false.
Proof.
  revert el. induction n as [|n IH]; intros el H.
  - simpl. rewrite append_nil_r. split; [done|]. split; [lia|done].
  - change (hide_run el (replicate (S n) HideCall))
      with (hide_run (hide el) (replicate n HideCall)).
    assert (className (hide el) = className el +:+ " slide-up") as Hcls
      by (unfold hide; simpl; by rewrite H).
    destruct (IH (hide el)) as (Hc & Hp & Hi).
    { rewrite Hcls.
      change " slide-up" with (String (Ascii.ascii_of_nat 32) "slide-up").
      rewrite includes_no_cross by done. by rewrite H. }
    rewrite Hc, Hp, Hcls. split; [by rewrite append_assoc|].
    split; [simpl; lia|]. by rewrite Hc, Hcls in Hi.
Qed.


(** ** More about the markers, the labels and the merge *)






Lemma canonical_keys_nil : canonical_keys [].
Proof. apply canonical_plain. constructor. Qed.

Lemma canonical_keys_snoc (ks : list string) (k : string) :
  canonical_keys ks → JsObj.plain k → canonical_keys (ks ++ [k]).
Proof.
  induction 1 as [ks Hpl|k0 n ks Hk0 Hle Hks IH]; intros Hk.
  - apply canonical_plain. apply Forall_app. split; [done|]. by constructor.
  - simpl. apply (canonical_index k0 n); [done| |by apply IH].
    apply Forall_app. split; [done|]. constructor; [|constructor].
    unfold JsObj.plain in Hk. by rewrite Hk.
Qed.

Lemma canonical_keys_plain_head (k : string) (ks : list string) :
  canonical_keys (k :: ks) → JsObj.plain k → Forall JsObj.plain (k :: ks).
Proof.
  intros Hc Hk. inversion Hc as [? Hpl|? n ? Hidx]; subst; [done|].
  unfold JsObj.plain in Hk. congruence.
Qed.

Lemma canonical_keys_insert_index {V : Type} n k (v : V) (o : JsObj.t V) :
  JsObj.array_index k = Some n →
  canonical_keys (JsObj.keys o) →
  canonical_keys (JsObj.keys (JsObj.insert_index n k v o)).
Proof.
  intros Hk. unfold JsObj.keys.
  induction o as [|[k' v'] o IH]; simpl; intros Hc.
  - apply (canonical_index k n); [done|constructor|apply canonical_keys_nil].
  - destruct (JsObj.array_index k') as [n'|] eqn:Hk'.
    + inversion Hc as [? Hpl|? m ? Hidx Hle Hrest]; subst.
      { apply Forall_cons in Hpl as [Hpl _]. unfold JsObj.plain in Hpl. congruence. }
      assert (m = n') as -> by congruence.
      destruct (n' <? n)%N eqn:Hlt; simpl.
      * apply (canonical_index k' n'); [done| |by apply IH].
        pose proof (insert_index_perm n k v o) as Hperm.
        apply (fmap_Permutation fst) in Hperm. rewrite Hperm. simpl.
        constructor; [|done]. rewrite Hk. apply N.ltb_lt in Hlt. lia.
      * apply N.ltb_ge in Hlt.
        apply (canonical_index k n); [done| |done].
        constructor; [by rewrite Hk'|].
        eapply Forall_impl; [exact Hle|].
        intros k'' Hk''. simpl in Hk''.
        destruct (JsObj.array_index k''); [lia|done].
    + apply (canonical_index k n); [done| |done].
      apply canonical_keys_plain_head in Hc; [|done].
      eapply Forall_impl; [exact Hc|].
      intros k'' Hk''. unfold JsObj.plain in Hk''. by rewrite Hk''.
Qed.

Lemma canonical_keys_set {V : Type} k (v : V) (o : JsObj.t V) :
  canonical_keys (JsObj.keys o) → canonical_keys (JsObj.keys (JsObj.set k v o)).
Proof.
  intros Hc. unfold JsObj.set. destruct (JsObj.has k o).
  - by rewrite keys_replace.
  - destruct (JsObj.array_index k) as [n|] eqn:Hk.
    + by apply canonical_keys_insert_index.
    + unfold JsObj.keys. rewrite fmap_app. by apply canonical_keys_snoc.
Qed.

Lemma canonical_keys_assign_all {V : Type} (l : list (string * V)) (o : JsObj.t V) :
  canonical_keys (JsObj.keys o) → canonical_keys (JsObj.keys (assign_all l o)).
Proof.
  revert o. induction l as [|[k v] l IH]; intros o Hc; [done|].
  apply IH. by apply canonical_keys_set.
Qed.

Lemma canonical_keys_order (ks : list string) i j ki kj nj :
  canonical_keys ks → i < j →
  ks !! i = Some ki → ks !! j = Some kj →
  JsObj.array_index kj = Some nj →
  ∃ ni, JsObj.array_index ki = Some ni ∧ (ni ≤ nj)%N.
Proof.
  intros Hc. revert i j.
  induction Hc as [ks Hpl|k n ks Hk Hle Hks IH]; intros i j Hij Hi Hj Hnj.
  - rewrite Forall_forall in Hpl.
    assert (JsObj.plain kj) as Hp by (eapply Hpl, list_elem_of_lookup_2; done).
    unfold JsObj.plain in Hp. congruence.
  - destruct j as [|j]; [lia|]. simpl in Hj.
    destruct i as [|i]; simpl in Hi.
    + injection Hi as <-. exists n. split; [done|].
      rewrite Forall_forall in Hle.
      assert (kj ∈ ks) as Hin by (eapply list_elem_of_lookup_2; done).
      apply Hle in Hin. by rewrite Hnj in Hin.
    + apply (IH i j); [lia|done..].
Qed.

(** X8. In the mapping [setFeatureLayers] returns, the names that read as
    array indices come first, in ascending order of their value: whatever
    stands before such a name is such a name too, with a value that is
    not larger.  The order in which the entries were handed in does not
    show for these names. *)
Theorem setFeatureLayers_index_names_first
    (layerGroups : list (JsObj.t jsval)) i j ki kj nj :
  i < j →
  JsObj.keys (setFeatureLayers layerGroups) !! i = Some ki →
  JsObj.keys (setFeatureLayers layerGroups) !! j = Some kj →
  JsObj.array_index kj = Some nj →
  ∃ ni, JsObj.array_index ki = Some ni ∧ (ni ≤ nj)%N.
Proof.
  apply canonical_keys_order. rewrite setFeatureLayers_concat.
  apply canonical_keys_assign_all, canonical_keys_nil.
Qed.


(** ** More about the click handler and the page *)

(** The layers a click leaves on the map before it adds its marker. *)
Lemma removeLayer_bound id bound (layers : list (nat * jsval)) :
  Forall (λ entry : nat * jsval, entry.1 < bound) layers →
  Forall (λ entry : nat * jsval, entry.1 < bound) (removeLayer id layers).
Proof.
  intros H. unfold removeLayer. rewrite Forall_forall in H |- *.
  intros entry Hin. apply list_elem_of_filter in Hin as [_ Hin]. by apply H.
Qed.

Lemma click_any (st : shell) (latlng : LatLng) :
  Forall (λ entry : nat * jsval, (entry.1 ≤ lastId st)%nat) (map_layers st) →
  click st latlng =
  {| map_layers :=
       match userInput st with
       | Some id => removeLayer id (map_layers st)
       | None => map_layers st
       end
       ++ [(S (lastId st), VMarker latlng (Some "Possible Enemy Location"))];
     lastId := S (lastId st);
     userInput := Some (S (lastId st)) |}.
Proof.
  intros Hids. unfold click.
  assert (Forall (λ entry : nat * jsval, entry.1 < S (lastId st)) (map_layers st))
    as Hlt by (eapply Forall_impl; [done|]; simpl; intros; lia).
  assert (Forall (λ entry : nat * jsval, entry.1 < S (lastId st))
            match userInput st with
            | Some id => removeLayer id (map_layers st)
            | None => map_layers st
            end) as Hkept
    by (destruct (userInput st); [by apply removeLayer_bound|done]).
  by rewrite addTo_fresh, bindPopup_last.
Qed.

Lemma clicks_any (st : shell) (es : list LatLng) (latlng : LatLng) :
  Forall (λ entry : nat * jsval, (entry.1 ≤ lastId st)%nat) (map_layers st) →
  clicks st (es ++ [latlng]) =
  {| map_layers :=
       match userInput st with
       | Some id => removeLayer id (map_layers st)
       | None => map_layers st
       end
       ++ [(lastId st + length es + 1,
            VMarker latlng (Some "Possible Enemy Location"))];
     lastId := lastId st + length es + 1;
     userInput := Some (lastId st + length es + 1) |}.
Proof.
  intros Hids.
  assert (Forall (λ entry : nat * jsval, entry.1 < S (lastId st))
            match userInput st with
            | Some id => removeLayer id (map_layers st)
            | None => map_layers st
            end) as Hkept.
  { assert (Forall (λ entry : nat * jsval, entry.1 < S (lastId st)) (map_layers st))
      as Hlt by (eapply Forall_impl; [done|]; simpl; intros; lia).
    destruct (userInput st); [by apply removeLayer_bound|done]. }
  destruct es as [|e es].
  - change (clicks st ([] ++ [latlng])) with (click st latlng).
    rewrite click_any by done. simpl.
    by replace (lastId st + 0 + 1) with (S (lastId st)) by lia.
  - change (clicks st ((e :: es) ++ [latlng]))
      with (clicks (click st e) (es ++ [latlng])).
    rewrite click_any by done.
    rewrite clicks_again by done. simpl.
    by replace (S (lastId st + length es + 1))
      with (lastId st + S (length es) + 1) by lia.
Qed.

(** X9. Clicking never touches a layer other than the marker
    [m.userInput] refers to.  From any map whose stamps do not exceed the
    stamp counter, after one or more clicks the layers are those the map
    had, in their order and unchanged, without the layer [m.userInput]
    referred to at the start, followed by one new marker at the last
    location clicked; the stamps on the map stay pairwise distinct. *)
Theorem clicks_keep_other_layers (st : shell) (es : list LatLng) (latlng : LatLng) :
  Forall (λ entry : nat * jsval, (entry.1 ≤ lastId st)%nat) (map_layers st) →
  NoDup (map_layers st).*1 →
  let st' := clicks st (es ++ [latlng]) in
  map_layers st' =
    match userInput st with
    | Some id => removeLayer id (map_layers st)
    | None => map_layers st
    end
    ++ [(lastId st + length es + 1, VMarker latlng (Some "Possible Enemy Location"))] ∧
  userInput st' = Some (lastId st + length es + 1) ∧
  Forall (λ entry : nat * jsval, (entry.1 ≤ lastId st')%nat) (map_layers st') ∧
  NoDup (map_layers st').*1.
Proof.
  intros Hids Hnd st'. subst st'. rewrite clicks_any by done. simpl.
  set (kept := match userInput st with
               | Some id => removeLayer id (map_layers st)
               | None => map_layers st
               end).
  assert (Forall (λ entry : nat * jsval, (entry.1 ≤ lastId st)%nat) kept) as Hkept.
  { subst kept. destruct (userInput st); [|done].
    unfold removeLayer. rewrite Forall_forall in Hids |- *.
    intros entry Hin. apply list_elem_of_filter in Hin as [_ Hin]. by apply Hids. }
  assert (NoDup kept.*1) as Hkeptnd.
  { subst kept. destruct (userInput st); [|done].
    unfold removeLayer. eapply sublist_NoDup; [exact Hnd|].
    apply fmap_sublist, sublist_filter. }
  split; [done|]. split; [done|]. split.
  - apply Forall_app. split.
    + eapply Forall_impl; [exact Hkept|]. simpl. intros; lia.
    + constructor; [simpl; lia|constructor].
  - rewrite fmap_app. apply NoDup_app. split; [done|]. split.
    + intros id Hin Hid. simpl in Hid. apply list_elem_of_singleton in Hid.
      apply list_elem_of_fmap in Hin as (entry & -> & Hin).
      rewrite Forall_forall in Hkept. apply Hkept in Hin. lia.
    + simpl. apply NoDup_singleton.
Qed.


Lemma page_run_app (pg : page) (evs1 evs2 : list page_event) :
  page_run pg (evs1 ++ evs2) = page_run (page_run pg evs1) evs2.
Proof. apply fold_left_app. Qed.

Lemma clicked_app (evs1 evs2 : list page_event) :
  clicked (evs1 ++ evs2) = clicked evs1 ++ clicked evs2.
Proof. apply omap_app. Qed.

(** The map sees the clicks only. *)
Lemma map_state_page_run (pg : page) (evs : list page_event) :
  map_state (page_run pg evs) = clicks (map_state pg) (clicked evs).
Proof.
  revert pg. induction evs as [|ev evs IH]; intros pg; [done|].
  change (page_run pg (ev :: evs)) with (page_run (page_step pg ev) evs).
  rewrite IH. destruct ev; simpl; try done.
  by destruct (autohide pg).
Qed.

Lemma clickCoords_page_run (pg : page) (evs : list page_event) :
  clicked evs = [] → clickCoords (page_run pg evs) = clickCoords pg.
Proof.
  revert pg. induction evs as [|ev evs IH]; intros pg Hno; [done|].
  change (page_run pg (ev :: evs)) with (page_run (page_step pg ev) evs).
  destruct ev; simpl in Hno; try done; rewrite IH by done; simpl; try done.
  by destruct (autohide pg).
Qed.

(** X10. The click readout always describes the marker on the map.
    After any events the last click of which was at [latlng] (hovering
    and timers may come before and after), the readout is the text
    [getEventCoordinates] gives for [latlng] with two decimals, and the
    last layer of the map is the marker at [latlng], the one
    [m.userInput] refers to. *)
Theorem click_readout_matches_marker
    (pg : page) (evs1 evs2 : list page_event) (latlng : LatLng) :
  Forall (λ entry : nat * jsval, (entry.1 ≤ lastId (map_state pg))%nat)
    (map_layers (map_state pg)) →
  clicked evs2 = [] →
  let pg' := page_run pg (evs1 ++ Click latlng :: evs2) in
  let id := lastId (map_state pg) + length (clicked evs1) + 1 in
  clickCoords pg' = getEventCoordinates latlng 2 ∧
  last (map_layers (map_state pg')) =
    Some (id, VMarker latlng (Some "Possible Enemy Location")) ∧
  userInput (map_state pg') = Some id.
Proof.
  intros Hids Hno pg' id. subst pg' id. split.
  - rewrite page_run_app.
    change (page_run ?p (Click latlng :: evs2))
      with (page_run (on_click p latlng) evs2).
    by rewrite clickCoords_page_run.
  - rewrite map_state_page_run, clicked_app.
    change (clicked (Click latlng :: evs2)) with (latlng :: clicked evs2).
    rewrite Hno. rewrite clicks_any by done. simpl.
    split; [by rewrite last_snoc|done].
Qed.

Lemma welcome_step_hidden (pg : page) (ev : page_event) :
  includes "d-none" (className (welcomeMsg pg)) = true →
  includes "d-none" (className (welcomeMsg (page_step pg ev))) = true.
Proof.
  intros H. destruct ev; simpl; try done.
  - by apply (hide_step_hidden _ HideCall).
  - destruct (autohide pg); simpl; [|done]. by apply (hide_step_hidden _ HideCall).
  - by apply (hide_step_hidden _ TimerRuns).
Qed.

Lemma welcome_run_hidden (pg : page) (evs : list page_event) :
  includes "d-none" (className (welcomeMsg pg)) = true →
  includes "d-none" (className (welcomeMsg (page_run pg evs))) = true.
Proof.
  revert pg. induction evs as [|ev evs IH]; intros pg H; [done|].
  apply IH. by apply welcome_step_hidden.
Qed.

Lemma welcome_step_on_the_way (pg : page) (ev : page_event) :
  includes "d-none" (className (welcomeMsg pg)) = true
  ∨ 0 < pending (welcomeMsg pg) →
  includes "d-none" (className (welcomeMsg (page_step pg ev))) = true
  ∨ 0 < pending (welcomeMsg (page_step pg ev)).
Proof.
  intros H. destruct ev; simpl; try done.
  - by apply (hide_step_on_the_way _ HideCall).
  - destruct (autohide pg); simpl; [|done]. by apply (hide_step_on_the_way _ HideCall).
  - by apply (hide_step_on_the_way _ TimerRuns).
Qed.

Lemma welcome_run_on_the_way (pg : page) (evs : list page_event) :
  includes "d-none" (className (welcomeMsg pg)) = true
  ∨ 0 < pending (welcomeMsg pg) →
  includes "d-none" (className (welcomeMsg (page_run pg evs))) = true
  ∨ 0 < pending (welcomeMsg (page_run pg evs)).
Proof.
  revert pg. induction evs as [|ev evs IH]; intros pg H; [done|].
  apply IH. by apply welcome_step_on_the_way.
Qed.

(** X11. The welcome message goes away and stays away: after a click, or
    after the ten-second callback has run while it was still due, the
    next half-second callback leaves ["d-none"] in the message's class
    name, and nothing that happens on the page afterwards takes it
    out. *)
Theorem welcome_message_hides
    (pg : page) (evs1 evs2 evs3 : list page_event) (ev : page_event) :
  (∃ latlng, ev = Click latlng)
  ∨ (ev = AutohideRuns ∧ autohide (page_run pg evs1) = true) →
  includes "d-none"
    (className
       (welcomeMsg
          (page_run pg (evs1 ++ ev :: evs2 ++ WelcomeTimerRuns :: evs3)))) = true.
Proof.
  intros Hev. rewrite page_run_app.
  change (page_run ?p (ev :: evs2 ++ WelcomeTimerRuns :: evs3))
    with (page_run (page_step p ev) (evs2 ++ WelcomeTimerRuns :: evs3)).
  rewrite page_run_app.
  change (page_run ?p (WelcomeTimerRuns :: evs3))
    with (page_run (page_step p WelcomeTimerRuns) evs3).
  apply welcome_run_hidden. simpl. apply hide_timer_hides.
  apply welcome_run_on_the_way. right.
  destruct Hev as [[latlng ->]|[-> Hauto]]; simpl; [lia|].
  rewrite Hauto. simpl. lia.
Qed.

End Viewer.

(** ** The statements at the page's own configuration *)

Example array_index_2021 : JsObj.array_index "2021" = Some 2021%N.
Proof. reflexivity. Qed.

Example array_index_leading_zero : JsObj.array_index "007" = None.
Proof. reflexivity. Qed.

Example array_index_name : JsObj.array_index "Edmonton Parks" = None.
Proof. reflexivity. Qed.

Example set_orders_indices :
  JsObj.set "1" 10 (JsObj.set "b" 20 (JsObj.set "2" 30 [])) =
  [("1", 10); ("2", 30); ("b", 20)].
Proof. reflexivity. Qed.

(** The page's run when both files arrive. *)
Example page_run_trace :
  trace (run sample_parse sample_features [marker] basemapTiles
           (initial [marker] basemapTiles geoJSON []) [Load "parks"; Load "roads"]) =
  [Retrieve 0 "json/EdmontonParks.geojson";
   Replace 0 park_entry;
   Retrieve 1 "json/EdmontonRoads.geojson";
   Replace 1 road_entry;
   Complete (marker ++ park_entry ++ road_entry)].
Proof. vm_compute. reflexivity. Qed.


Lemma retrievals_sequential_witness :
  ∃ e, Replace 0 e ∈ [Retrieve 0 "json/EdmontonParks.geojson"; Replace 0 park_entry].
Proof.
  destruct (retrievals_strictly_sequential sample_parse sample_features
              [marker] basemapTiles geoJSON [] [Load "parks"]
              [Retrieve 0 "json/EdmontonParks.geojson"; Replace 0 park_entry]
              [] 1 "json/EdmontonRoads.geojson")
    as [Hbefore _]; [vm_compute; reflexivity|].
  destruct (Hbefore 0) as (d & e & _ & _ & _ & He); [lia|].
  exists e. exact He.
Defined.


Lemma failure_halts_witness :
  let st := initial [marker] basemapTiles geoJSON [] in
  run sample_parse sample_features [marker] basemapTiles
    (deliver sample_parse sample_features [marker] basemapTiles st Fail)
    [Load "roads"; Load "parks"] =
  settle st.
Proof.
  intros st.
  apply (failure_halts_sequence sample_parse sample_features
           [marker] basemapTiles geoJSON [] [] [Load "roads"; Load "parks"]
           Fail 0 parks);
    [reflexivity | by eexists | reflexivity | by left].
Defined.


(** Names that read as array indices are listed in numeric order, whatever
    the order of the descriptors. *)
Example year_names_are_sorted :
  JsObj.keys
    (overlays
       (default (Control [] [])
          (last (controls
                   (run sample_parse sample_features [marker] basemapTiles
                      (initial [marker] basemapTiles [roads2021; roads2020] [])
                      [Load "roads"; Load "roads"]))))) =
  ["2020"; "2021"; "Enemies"].
Proof. vm_compute. reflexivity. Qed.





Lemma two_clicks_witness :
  let first := {| lat := 53.5; lng := -113.5 |} in
  let second := {| lat := 53.25; lng := -113.75 |} in
  let st := {| map_layers := [(1, VTileLayer "osm")]; lastId := 1; userInput := None |} in
  map_layers (clicks st [first; second]) =
  [(1, VTileLayer "osm"); (3, VMarker second (Some "Possible Enemy Location"))].
Proof.
  intros first second st.
  apply (one_transient_marker st [first] second).
  - reflexivity.
  - repeat constructor.
Defined.

Lemma return_value_witness :
  (setAllControls [marker] basemapTiles (descriptor_obj <$> geoJSON) []).1 =
    Return None ∧
  (onload_handler sample_parse sample_features [marker] basemapTiles 1 "roads"
     (settle (waiting_state [] [parks] roads [] [park_entry] true))).1 =
    Return (Some ([marker] ++ [park_entry] ++ [road_entry])).
Proof.
  destruct (setAllControls_return_value sample_parse sample_features
              [marker] basemapTiles geoJSON [] (descriptor_obj <$> geoJSON))
    as [Hret Hlast].
  split; [exact Hret|].
  apply (Hlast [parks] roads [park_entry] "roads" road_entry).
  - reflexivity.
  - repeat constructor. exists "parks". vm_compute. reflexivity.
  - vm_compute. reflexivity.
Defined.

(** A document with a feature whose [properties] member is [null] is not
    realized: the callback throws while the layer is built. *)
Example null_properties_throw :
  realized_entry sample_parse sample_features parks "bare" = None.
Proof. reflexivity. Qed.

(** ** The further statements at sample inputs *)

Example marker_is_setMarkers : marker = [("Enemies", setMarkers [pointLongLat])].
Proof. reflexivity. Qed.

Example two_quick_clicks_then_timers :
  className (hide_run (Element "alert" 0) [HideCall; HideCall; TimerRuns; TimerRuns]) =
  "alert slide-up slide-up d-none d-none".
Proof. reflexivity. Qed.

Lemma class_name_grows_witness :
  includes "alert" (className (hide_run (Element "alert" 0) [HideCall; TimerRuns])) = true.
Proof.
  destruct (class_name_only_grows (Element "alert" 0) [HideCall; TimerRuns])
    as (added & _ & Hkept).
  apply Hkept. reflexivity.
Defined.

Lemma hidden_element_witness :
  ∃ k,
    className (hide_run (Element "alert d-none" 0)
                 [HideCall; TimerRuns; HideCall; TimerRuns]) =
      "alert d-none" +:+ repeated k " d-none" ∧
    k + pending (hide_run (Element "alert d-none" 0)
                   [HideCall; TimerRuns; HideCall; TimerRuns]) = 0 + 2.
Proof.
  apply (hidden_element_collects_d_none (Element "alert d-none" 0)
           [HideCall; TimerRuns; HideCall; TimerRuns]).
  reflexivity.
Defined.

Lemma slide_up_witness :
  className (hide_run (Element "alert" 0) (replicate 2 HideCall)) =
  "alert" +:+ repeated 2 " slide-up".
Proof.
  apply (slide_up_once_per_call (Element "alert" 0) 2). reflexivity.
Defined.



Lemma index_names_first_witness :
  ∃ ni, JsObj.array_index "2020" = Some ni ∧ (ni ≤ 2021)%N.
Proof.
  apply (setFeatureLayers_index_names_first
           [marker; [("2021", VStr "roads of 2021")]; [("2020", VStr "roads of 2020")]]
           0 1 "2020" "2021" 2021%N);
    [lia|reflexivity|reflexivity|reflexivity].
Defined.

Lemma clicks_keep_witness :
  let second := {| lat := 53.25; lng := -113.75 |} in
  let st := {| map_layers :=
                 [(1, VTileLayer "osm");
                  (2, VMarker pointLongLat (Some "Possible Enemy Location"));
                  (3, VLayerGroup [])];
               lastId := 3;
               userInput := Some 2 |} in
  map_layers (clicks st [second]) =
  [(1, VTileLayer "osm"); (3, VLayerGroup []);
   (4, VMarker second (Some "Possible Enemy Location"))].
Proof.
  intros second st.
  apply (clicks_keep_other_layers st [] second).
  - repeat constructor.
  - refine (bool_decide_unpack _ _). vm_compute. exact I.
Defined.

Lemma click_readout_witness :
  let here := {| lat := 53.5; lng := -113.5 |} in
  let pg := {| map_state :=
                 {| map_layers := [(1, VTileLayer "osm")]; lastId := 1;
                    userInput := None |};
               welcomeMsg := Element "alert" 0;
               clickCoords := "";
               mousePos := "";
               autohide := true |} in
  clickCoords
    (page_run sample_toFixed pg
       ([Mousemove pointLongLat; Click pointLongLat]
        ++ Click here :: [Mousemove pointLongLat; WelcomeTimerRuns])) =
  getEventCoordinates sample_toFixed here 2.
Proof.
  intros here pg.
  apply (click_readout_matches_marker sample_toFixed pg
           [Mousemove pointLongLat; Click pointLongLat]
           [Mousemove pointLongLat; WelcomeTimerRuns] here).
  - repeat constructor.
  - reflexivity.
Defined.

Lemma welcome_hides_witness :
  let pg := {| map_state :=
                 {| map_layers := [(1, VTileLayer "osm")]; lastId := 1;
                    userInput := None |};
               welcomeMsg := Element "alert" 0;
               clickCoords := "";
               mousePos := "";
               autohide := true |} in
  includes "d-none"
    (className
       (welcomeMsg
          (page_run sample_toFixed pg
             ([Mousemove pointLongLat] ++ AutohideRuns
              :: [Mousemove pointLongLat] ++ WelcomeTimerRuns
              :: [Click pointLongLat])))) = true.
Proof.
  intros pg.
  apply (welcome_message_hides sample_toFixed pg).
  right. split; reflexivity.
Defined.

Lemma retrievals_witness :
  ∃ k, 0 < k ∧
       retrievals
         (trace (run sample_parse sample_features [marker] basemapTiles
                   (initial [marker] basemapTiles geoJSON []) [Fail])) =
       imap (λ i d, (i, src d)) (take k geoJSON).
Proof.
  destruct (retrievals_follow_sources sample_parse sample_features
              [marker] basemapTiles geoJSON [] [Fail]) as (k & _ & Hpos & Hr).
  exists k. split; [apply Hpos; discriminate|exact Hr].
Defined.

Lemma control_with_last_response_witness :
  run sample_parse sample_features [marker] basemapTiles
    (initial [marker] basemapTiles geoJSON []) [Load "parks"] =
  waiting_state [] [parks] roads [] [park_entry] true.
Proof.
  apply (proj1 (control_comes_with_last_response sample_parse sample_features
                  [marker] basemapTiles geoJSON []) [parks] roads [] ["parks"]
               [park_entry]);
    reflexivity.
Defined.

